(** * Overlay Manager API: a shallow embedding of [main.py]

    The service keeps a list of overlays and an id counter at module scope and
    serves five operations on them.  The embedding follows the source:

    - the three pydantic models ([Overlay], [OverlayCreate], [OverlayUpdate])
      are records, and their declared constraints are boolean checks;
    - a request body is a JSON object whose members may be missing, [null],
      of the wrong type, or a value; parsing it into a model is what FastAPI
      does before a handler runs; a non-finite number occurs in a body only
      as the value of a float member;
    - the module globals [_overlays] and [_next_id] are the two fields of
      [Store], threaded explicitly through every handler;
    - a raised exception is the left injection of the handler's result.

    Python [int] is [Z], Python [float] is a binary64 float, [str] is
    [string] (its length is counted in characters of the Rocq string). *)

From Stdlib Require Import ZArith PrimFloat.
From stdpp Require Import base option list list_numbers sorting strings.

Open Scope Z_scope.

(** ** Constrained types *)

(** [constr(min_length=..., max_length=...)] *)
Definition constr (min_length : nat) (max_length : option nat) (v : string) : bool :=
  (min_length <=? String.length v)%nat
  && match max_length with
     | Some m => (String.length v <=? m)%nat
     | None => true
     end.

(** [confloat(ge=..., le=...)]: both comparisons are IEEE comparisons, so a
    NaN satisfies neither. *)
Definition confloat (ge le : float) (v : float) : bool :=
  PrimFloat.leb ge v && PrimFloat.leb v le.

(** The constraint of each field, shared by the three models (they declare
    the same bounds). *)
Definition name_ok : string -> bool := constr 1 (Some 100%nat).
Definition type_ok : string -> bool := constr 1 None.
Definition percent_ok : float -> bool := confloat 0 100.
Definition opacity_ok : float -> bool := confloat 0.0 1.0.
Definition color_ok : string -> bool := constr 1 None.

(** ** Errors *)

(** [ValidationError loc]: the request body was rejected by FastAPI (422);
    [loc] lists the offending fields.
    [NotFoundError]: [HTTPException(status_code=404, detail="Overlay not found")].
    [ModelError loc]: a pydantic error raised by [Overlay(...)] inside a
    handler, which no handler catches.
    [RenderError]: the exception raised while the reply to a rejected body is
    written out as JSON; the application registers no handler for it, so the
    client gets a 500. *)
Inductive error :=
| ValidationError (loc : list string)
| NotFoundError
| ModelError (loc : list string)
| RenderError.


(** One entry of an error list: the field name when its check failed. *)
Definition check (loc : string) (ok : bool) : list string :=
  if ok then [] else [loc].

(** ** The [Overlay] model *)

Module Overlay.

Record t := mk {
  id : Z;
  name : string;
  type : string;
  x : float;
  y : float;
  w : float;
  h : float;
  opacity : float;
  color : string;
  content : option string;
  visible : bool
}.

(** The declared constraints of the class, field by field. *)
Definition valid (o : t) : bool :=
  name_ok (name o) && type_ok (type o)
  && percent_ok (x o) && percent_ok (y o) && percent_ok (w o) && percent_ok (h o)
  && opacity_ok (opacity o) && color_ok (color o).

Definition errors (o : t) : list string :=
  check "name" (name_ok (name o)) ++ check "type" (type_ok (type o))
  ++ check "x" (percent_ok (x o)) ++ check "y" (percent_ok (y o))
  ++ check "w" (percent_ok (w o)) ++ check "h" (percent_ok (h o))
  ++ check "opacity" (opacity_ok (opacity o)) ++ check "color" (color_ok (color o)).

(** The constructor call on a complete dict of keyword arguments: they are
    typed as the record, so construction amounts to running the field
    validators. *)
Definition new (data : t) : error + t :=
  if valid data then inr data else inl (ModelError (errors data)).

End Overlay.

(** ** Request bodies *)

(** A member of the JSON object sent by the client. *)
Inductive member (A : Type) :=
| Absent
| Null
| Mistyped
| Given (v : A).
Arguments Absent {A}.
Arguments Null {A}.
Arguments Mistyped {A}.
Arguments Given {A} v.

Module Body.

Record t := mk {
  name : member string;
  type : member string;
  x : member float;
  y : member float;
  w : member float;
  h : member float;
  opacity : member float;
  color : member string;
  content : member string;
  visible : member bool
}.

(** The empty JSON object. *)
Definition empty : t :=
  mk Absent Absent Absent Absent Absent Absent Absent Absent Absent Absent.

End Body.

(** A float member whose value is an infinity or a NaN (the JSON parser reads
    [1e400] as infinity and accepts the literals [Infinity] and [NaN]). *)
Definition non_finite (m : member float) : bool :=
  match m with
  | Given v => negb (PrimFloat.is_finite v)
  | Absent | Null | Mistyped => false
  end.

Definition carries_non_finite (b : Body.t) : bool :=
  non_finite (Body.x b) || non_finite (Body.y b) || non_finite (Body.w b)
  || non_finite (Body.h b) || non_finite (Body.opacity b).

(** The reply to a rejected body.  FastAPI renders the list of errors as the
    JSON body of a 422, and every entry echoes the input it rejects.  A
    non-finite float always breaks the bounds of its field, so it is echoed,
    and it cannot be written as JSON: the rendering raises instead of
    producing the 422.  (A member of the wrong type stands for a value that
    can be rendered.) *)
Definition rendered (b : Body.t) (e : error) : error :=
  if carries_non_finite b then RenderError else e.

(** A field without default: it must be there and must not be [null]. *)
Definition required {A} (ok : A -> bool) (m : member A) : option A :=
  match m with
  | Given v => if ok v then Some v else None
  | Absent | Null | Mistyped => None
  end.

(** A field [f: T = d]: the default stands in for a missing member only. *)
Definition defaulted {A} (ok : A -> bool) (d : A) (m : member A) : option A :=
  match m with
  | Absent => Some d
  | Given v => if ok v then Some v else None
  | Null | Mistyped => None
  end.

(** A field [f: Optional[T] = None]: missing and [null] both give [None]. *)
Definition optional {A} (ok : A -> bool) (m : member A) : option (option A) :=
  match m with
  | Absent | Null => Some None
  | Given v => if ok v then Some (Some v) else None
  | Mistyped => None
  end.

Definition unconstrained {A} (_ : A) : bool := true.

(** ** The [OverlayCreate] model *)

Module OverlayCreate.

Record t := mk {
  name : string;
  type : string;
  x : float;
  y : float;
  w : float;
  h : float;
  opacity : float;
  color : string;
  content : option string;
  visible : bool
}.

Definition valid (p : t) : bool :=
  name_ok (name p) && type_ok (type p)
  && percent_ok (x p) && percent_ok (y p) && percent_ok (w p) && percent_ok (h p)
  && opacity_ok (opacity p) && color_ok (color p).

Definition fields (b : Body.t) : option t :=
  name ← required name_ok (Body.name b);
  type ← required type_ok (Body.type b);
  x ← defaulted percent_ok 10.0%float (Body.x b);
  y ← defaulted percent_ok 10.0%float (Body.y b);
  w ← defaulted percent_ok 20.0%float (Body.w b);
  h ← defaulted percent_ok 10.0%float (Body.h b);
  opacity ← defaulted opacity_ok 1.0%float (Body.opacity b);
  color ← defaulted color_ok "#ff0000" (Body.color b);
  content ← optional unconstrained (Body.content b);
  visible ← defaulted unconstrained true (Body.visible b);
  Some (mk name type x y w h opacity color content visible).

Definition errors (b : Body.t) : list string :=
  check "name" (bool_decide (is_Some (required name_ok (Body.name b))))
  ++ check "type" (bool_decide (is_Some (required type_ok (Body.type b))))
  ++ check "x" (bool_decide (is_Some (defaulted percent_ok 10.0%float (Body.x b))))
  ++ check "y" (bool_decide (is_Some (defaulted percent_ok 10.0%float (Body.y b))))
  ++ check "w" (bool_decide (is_Some (defaulted percent_ok 20.0%float (Body.w b))))
  ++ check "h" (bool_decide (is_Some (defaulted percent_ok 10.0%float (Body.h b))))
  ++ check "opacity" (bool_decide (is_Some (defaulted opacity_ok 1.0%float (Body.opacity b))))
  ++ check "color" (bool_decide (is_Some (defaulted color_ok "#ff0000" (Body.color b))))
  ++ check "content" (bool_decide (is_Some (optional unconstrained (Body.content b))))
  ++ check "visible" (bool_decide (is_Some (defaulted unconstrained true (Body.visible b)))).

(** What FastAPI does with the body before [create_overlay] is called. *)
Definition parse (b : Body.t) : error + t :=
  match fields b with
  | Some p => inr p
  | None => inl (ValidationError (errors b))
  end.

End OverlayCreate.

(** ** The [OverlayUpdate] model *)

Module OverlayUpdate.

Record t := mk {
  name : option string;
  type : option string;
  x : option float;
  y : option float;
  w : option float;
  h : option float;
  opacity : option float;
  color : option string;
  content : option string;
  visible : option bool
}.

Definition holds {A} (ok : A -> bool) (v : option A) : bool :=
  match v with
  | Some a => ok a
  | None => true
  end.

(** Every field that is not [None] satisfies its constraint. *)
Definition valid (p : t) : bool :=
  holds name_ok (name p) && holds type_ok (type p)
  && holds percent_ok (x p) && holds percent_ok (y p)
  && holds percent_ok (w p) && holds percent_ok (h p)
  && holds opacity_ok (opacity p) && holds color_ok (color p).

Definition fields (b : Body.t) : option t :=
  name ← optional name_ok (Body.name b);
  type ← optional type_ok (Body.type b);
  x ← optional percent_ok (Body.x b);
  y ← optional percent_ok (Body.y b);
  w ← optional percent_ok (Body.w b);
  h ← optional percent_ok (Body.h b);
  opacity ← optional opacity_ok (Body.opacity b);
  color ← optional color_ok (Body.color b);
  content ← optional unconstrained (Body.content b);
  visible ← optional unconstrained (Body.visible b);
  Some (mk name type x y w h opacity color content visible).

Definition errors (b : Body.t) : list string :=
  check "name" (bool_decide (is_Some (optional name_ok (Body.name b))))
  ++ check "type" (bool_decide (is_Some (optional type_ok (Body.type b))))
  ++ check "x" (bool_decide (is_Some (optional percent_ok (Body.x b))))
  ++ check "y" (bool_decide (is_Some (optional percent_ok (Body.y b))))
  ++ check "w" (bool_decide (is_Some (optional percent_ok (Body.w b))))
  ++ check "h" (bool_decide (is_Some (optional percent_ok (Body.h b))))
  ++ check "opacity" (bool_decide (is_Some (optional opacity_ok (Body.opacity b))))
  ++ check "color" (bool_decide (is_Some (optional color_ok (Body.color b))))
  ++ check "content" (bool_decide (is_Some (optional unconstrained (Body.content b))))
  ++ check "visible" (bool_decide (is_Some (optional unconstrained (Body.visible b)))).

Definition parse (b : Body.t) : error + t :=
  match fields b with
  | Some p => inr p
  | None => inl (ValidationError (errors b))
  end.

(** The model with no field set: what an empty body parses to. *)
Definition empty : t := mk None None None None None None None None None None.

End OverlayUpdate.

(** ** In-memory storage *)

Record Store := mkStore {
  _overlays : list Overlay.t;
  _next_id : Z
}.

(** The globals as the module initialises them. *)
Definition init : Store := mkStore [] 1.

Definition has_id (overlay_id : Z) (ov : Overlay.t) : Prop := Overlay.id ov = overlay_id.

#[global] Instance has_id_dec overlay_id ov : Decision (has_id overlay_id ov).
Proof. unfold has_id. apply _. Defined.

(** ** Handlers *)

Definition list_overlays (s : Store) : list Overlay.t := _overlays s.

(** [Overlay(id=_next_id, **payload.dict())] *)
Definition create_data (next_id : Z) (payload : OverlayCreate.t) : Overlay.t :=
  Overlay.mk next_id
    (OverlayCreate.name payload) (OverlayCreate.type payload)
    (OverlayCreate.x payload) (OverlayCreate.y payload)
    (OverlayCreate.w payload) (OverlayCreate.h payload)
    (OverlayCreate.opacity payload) (OverlayCreate.color payload)
    (OverlayCreate.content payload) (OverlayCreate.visible payload).

Definition create_overlay (payload : OverlayCreate.t) (s : Store) : (error + Overlay.t) * Store :=
  match Overlay.new (create_data (_next_id s) payload) with
  | inl e => (inl e, s)
  | inr overlay =>
      (inr overlay, mkStore (_overlays s ++ [overlay]) (_next_id s + 1))
  end.

(** The loop returns the first overlay whose id matches. *)
Definition get_overlay (overlay_id : Z) (s : Store) : error + Overlay.t :=
  match list_find (has_id overlay_id) (_overlays s) with
  | Some (_, ov) => inr ov
  | None => inl NotFoundError
  end.

(** [data = ov.dict(); data.update({k: v for k, v in payload.dict().items()
    if v is not None})]: a payload field that is [None] keeps the stored
    value, any other replaces it.  The payload has no [id] key. *)
Definition update_data (ov : Overlay.t) (payload : OverlayUpdate.t) : Overlay.t :=
  Overlay.mk (Overlay.id ov)
    (default (Overlay.name ov) (OverlayUpdate.name payload))
    (default (Overlay.type ov) (OverlayUpdate.type payload))
    (default (Overlay.x ov) (OverlayUpdate.x payload))
    (default (Overlay.y ov) (OverlayUpdate.y payload))
    (default (Overlay.w ov) (OverlayUpdate.w payload))
    (default (Overlay.h ov) (OverlayUpdate.h payload))
    (default (Overlay.opacity ov) (OverlayUpdate.opacity payload))
    (default (Overlay.color ov) (OverlayUpdate.color payload))
    (match OverlayUpdate.content payload with
     | Some c => Some c
     | None => Overlay.content ov
     end)
    (default (Overlay.visible ov) (OverlayUpdate.visible payload)).

Definition update_overlay (overlay_id : Z) (payload : OverlayUpdate.t) (s : Store)
  : (error + Overlay.t) * Store :=
  match list_find (has_id overlay_id) (_overlays s) with
  | Some (idx, ov) =>
      match Overlay.new (update_data ov payload) with
      | inl e => (inl e, s)
      | inr updated =>
          (inr updated, mkStore (<[idx := updated]> (_overlays s)) (_next_id s))
      end
  | None => (inl NotFoundError, s)
  end.

(** [_overlays.pop(idx)] at the first index whose overlay has the id. *)
Definition delete_overlay (overlay_id : Z) (s : Store) : (error + unit) * Store :=
  match list_find (has_id overlay_id) (_overlays s) with
  | Some (idx, _) => (inr tt, mkStore (delete idx (_overlays s)) (_next_id s))
  | None => (inl NotFoundError, s)
  end.

(** ** The HTTP surface *)

(** The five routes under [/api/overlays]. *)
Inductive request :=
| GET_overlays
| POST_overlays (body : Body.t)
| GET_overlay (overlay_id : Z)
| PUT_overlay (overlay_id : Z) (body : Body.t)
| DELETE_overlay (overlay_id : Z).

Inductive reply :=
| Listed (overlays : list Overlay.t)
| Created (overlay : Overlay.t)
| Found (overlay : Overlay.t)
| Updated (overlay : Overlay.t)
| NoContent.


(** The body is validated against the route's model first; the handler runs
    only on a body that passed, and a body that did not is answered by
    [rendered]. *)
Definition post_overlays (body : Body.t) (s : Store) : (error + Overlay.t) * Store :=
  match OverlayCreate.parse body with
  | inl e => (inl (rendered body e), s)
  | inr payload => create_overlay payload s
  end.

Definition put_overlay (overlay_id : Z) (body : Body.t) (s : Store)
  : (error + Overlay.t) * Store :=
  match OverlayUpdate.parse body with
  | inl e => (inl (rendered body e), s)
  | inr payload => update_overlay overlay_id payload s
  end.

Definition serve (r : request) (s : Store) : (error + reply) * Store :=
  match r with
  | GET_overlays => (inr (Listed (list_overlays s)), s)
  | POST_overlays body =>
      let '(out, s') := post_overlays body s in (sum_map id Created out, s')
  | GET_overlay overlay_id => (sum_map id Found (get_overlay overlay_id s), s)
  | PUT_overlay overlay_id body =>
      let '(out, s') := put_overlay overlay_id body s in (sum_map id Updated out, s')
  | DELETE_overlay overlay_id =>
      let '(out, s') := delete_overlay overlay_id s in (sum_map id (λ _, NoContent) out, s')
  end.

(** The store after a sequence of requests. *)
Fixpoint exec (rs : list request) (s : Store) : Store :=
  match rs with
  | [] => s
  | r :: rs' => exec rs' (serve r s).2
  end.

Definition reachable (s : Store) : Prop := ∃ rs, s = exec rs init.

(** The ids handed out by the successful creations of a sequence of requests,
    in order. *)
Fixpoint created_ids (rs : list request) (s : Store) : list Z :=
  match rs with
  | [] => []
  | r :: rs' =>
      match (serve r s).1 with
      | inr (Created overlay) => Overlay.id overlay :: created_ids rs' (serve r s).2
      | _ => created_ids rs' (serve r s).2
      end
  end.

Definition create_or_delete (r : request) : bool :=
  match r with
  | POST_overlays _ | DELETE_overlay _ => true
  | _ => false
  end.

(** ** Sample data *)

Definition lower_third : Body.t :=
  Body.mk (Given "Lower Third") (Given "text") (Given 0%float) (Given 80%float)
    (Given 100%float) (Given 20%float) Absent Absent (Given "Breaking News") Absent.

Definition logo : Body.t :=
  Body.mk (Given "Logo") (Given "image") Absent Absent Absent Absent
    (Given 0.5%float) Absent Absent Absent.

Definition too_opaque : Body.t :=
  Body.mk (Given "Logo") (Given "image") Absent Absent Absent Absent
    (Given 1.5%float) Absent Absent Absent.

(** ** Vocabulary of the properties *)

(** What every handler preserves: distinct ids, valid overlays, and a
    counter above every stored id. *)
Record store_inv (s : Store) : Prop := {
  inv_nodup : NoDup (Overlay.id <$> _overlays s);
  inv_valid : Forall (λ ov, Overlay.valid ov = true) (_overlays s);
  inv_fresh : Forall (λ ov, 1 <= Overlay.id ov < _next_id s) (_overlays s);
  inv_next : 1 <= _next_id s
}.

Definition within (lo hi v : float) : Prop :=
  PrimFloat.leb lo v = true ∧ PrimFloat.leb v hi = true.

(** Name of 1 to 100 characters, type and color non-empty, x, y, w and h
    between 0 and 100, opacity between 0 and 1. *)
Record meets_constraints (ov : Overlay.t) : Prop := {
  name_length : (1 <= String.length (Overlay.name ov) <= 100)%nat;
  type_length : (1 <= String.length (Overlay.type ov))%nat;
  x_range : within 0 100 (Overlay.x ov);
  y_range : within 0 100 (Overlay.y ov);
  w_range : within 0 100 (Overlay.w ov);
  h_range : within 0 100 (Overlay.h ov);
  opacity_range : within 0 1 (Overlay.opacity ov);
  color_length : (1 <= String.length (Overlay.color ov))%nat
}.

(** A store reached by the end-to-end scenario followed by a rejected
    creation, a second creation and the deletion of an unknown id. *)
Definition sample_requests : list request :=
  [ POST_overlays lower_third;
    PUT_overlay 1 (Body.mk Absent Absent Absent Absent Absent Absent Absent Absent
                     Absent (Given false));
    POST_overlays too_opaque;
    POST_overlays logo;
    DELETE_overlay 7 ].

Definition sample_store : Store := exec sample_requests init.

Inductive field_name :=
| f_name | f_type | f_x | f_y | f_w | f_h | f_opacity | f_color | f_content | f_visible.

(** The body [b] with member [f] replaced by [m] (which carries no value). *)
Definition blank (m : ∀ A, member A) (f : field_name) (b : Body.t) : Body.t :=
  match f with
  | f_name => Body.mk (m _) (Body.type b) (Body.x b) (Body.y b) (Body.w b) (Body.h b)
                (Body.opacity b) (Body.color b) (Body.content b) (Body.visible b)
  | f_type => Body.mk (Body.name b) (m _) (Body.x b) (Body.y b) (Body.w b) (Body.h b)
                (Body.opacity b) (Body.color b) (Body.content b) (Body.visible b)
  | f_x => Body.mk (Body.name b) (Body.type b) (m _) (Body.y b) (Body.w b) (Body.h b)
             (Body.opacity b) (Body.color b) (Body.content b) (Body.visible b)
  | f_y => Body.mk (Body.name b) (Body.type b) (Body.x b) (m _) (Body.w b) (Body.h b)
             (Body.opacity b) (Body.color b) (Body.content b) (Body.visible b)
  | f_w => Body.mk (Body.name b) (Body.type b) (Body.x b) (Body.y b) (m _) (Body.h b)
             (Body.opacity b) (Body.color b) (Body.content b) (Body.visible b)
  | f_h => Body.mk (Body.name b) (Body.type b) (Body.x b) (Body.y b) (Body.w b) (m _)
             (Body.opacity b) (Body.color b) (Body.content b) (Body.visible b)
  | f_opacity => Body.mk (Body.name b) (Body.type b) (Body.x b) (Body.y b) (Body.w b)
                   (Body.h b) (m _) (Body.color b) (Body.content b) (Body.visible b)
  | f_color => Body.mk (Body.name b) (Body.type b) (Body.x b) (Body.y b) (Body.w b)
                 (Body.h b) (Body.opacity b) (m _) (Body.content b) (Body.visible b)
  | f_content => Body.mk (Body.name b) (Body.type b) (Body.x b) (Body.y b) (Body.w b)
                   (Body.h b) (Body.opacity b) (Body.color b) (m _) (Body.visible b)
  | f_visible => Body.mk (Body.name b) (Body.type b) (Body.x b) (Body.y b) (Body.w b)
                   (Body.h b) (Body.opacity b) (Body.color b) (Body.content b) (m _)
  end.

(** The body without member [f], and the body with [f: null]. *)
Definition omit : field_name -> Body.t -> Body.t := blank (@Absent).
Definition nullify : field_name -> Body.t -> Body.t := blank (@Null).


Definition interleaved : list request :=
  [ POST_overlays lower_third; POST_overlays logo; DELETE_overlay 2;
    POST_overlays logo; DELETE_overlay 1; POST_overlays too_opaque;
    POST_overlays lower_third ].

Definition valid_logo : OverlayCreate.t :=
  OverlayCreate.mk "Logo" "image" 10.0 10.0 20.0 10.0 0.5 "#ff0000" None true.

(** How a member of the body shows in the created overlay: a given value as
    it is, a missing member as the default of its field. *)
Definition filled {A} (m : member A) (d : A) (v : A) : Prop :=
  match m with
  | Absent => v = d
  | Given a => v = a
  | Null | Mistyped => False
  end.

Definition filled_optional {A} (m : member A) (v : option A) : Prop :=
  match m with
  | Absent | Null => v = None
  | Given a => v = Some a
  | Mistyped => False
  end.

Record from_body (b : Body.t) (ov : Overlay.t) : Prop := {
  from_name : Body.name b = Given (Overlay.name ov);
  from_type : Body.type b = Given (Overlay.type ov);
  from_x : filled (Body.x b) 10.0%float (Overlay.x ov);
  from_y : filled (Body.y b) 10.0%float (Overlay.y ov);
  from_w : filled (Body.w b) 20.0%float (Overlay.w ov);
  from_h : filled (Body.h b) 10.0%float (Overlay.h ov);
  from_opacity : filled (Body.opacity b) 1.0%float (Overlay.opacity ov);
  from_color : filled (Body.color b) "#ff0000" (Overlay.color ov);
  from_content : filled_optional (Body.content b) (Overlay.content ov);
  from_visible : filled (Body.visible b) true (Overlay.visible ov)
}.

(** A payload field that is set gives the new value; one that is [None]
    leaves the old value. *)
Definition supplied_or_kept {A} (p : option A) (old new : A) : Prop :=
  match p with
  | Some v => new = v
  | None => new = old
  end.

Record merged (payload : OverlayUpdate.t) (old new : Overlay.t) : Prop := {
  merged_id : Overlay.id new = Overlay.id old;
  merged_name : supplied_or_kept (OverlayUpdate.name payload) (Overlay.name old) (Overlay.name new);
  merged_type : supplied_or_kept (OverlayUpdate.type payload) (Overlay.type old) (Overlay.type new);
  merged_x : supplied_or_kept (OverlayUpdate.x payload) (Overlay.x old) (Overlay.x new);
  merged_y : supplied_or_kept (OverlayUpdate.y payload) (Overlay.y old) (Overlay.y new);
  merged_w : supplied_or_kept (OverlayUpdate.w payload) (Overlay.w old) (Overlay.w new);
  merged_h : supplied_or_kept (OverlayUpdate.h payload) (Overlay.h old) (Overlay.h new);
  merged_opacity :
    supplied_or_kept (OverlayUpdate.opacity payload) (Overlay.opacity old) (Overlay.opacity new);
  merged_color :
    supplied_or_kept (OverlayUpdate.color payload) (Overlay.color old) (Overlay.color new);
  merged_content :
    match OverlayUpdate.content payload with
    | Some c => Overlay.content new = Some c
    | None => Overlay.content new = Overlay.content old
    end;
  merged_visible :
    supplied_or_kept (OverlayUpdate.visible payload) (Overlay.visible old) (Overlay.visible new)
}.

Definition only_x : OverlayUpdate.t :=
  OverlayUpdate.mk None None (Some 5%float) None None None None None None None.

Definition stored_logo : Overlay.t :=
  Overlay.mk 2 "Logo" "image" 10.0 10.0 20.0 10.0 0.5 "#ff0000" None true.

Definition three_overlays : list request :=
  [ POST_overlays lower_third; POST_overlays logo; POST_overlays lower_third ].

(** ** Vocabulary of the further properties *)

(** Whether a request updates or deletes the overlay of the given id. *)
Definition writes_to (overlay_id : Z) (r : request) : bool :=
  match r with
  | PUT_overlay i _ | DELETE_overlay i => bool_decide (i = overlay_id)
  | _ => false
  end.







Definition hide : Body.t :=
  Body.mk Absent Absent Absent Absent Absent Absent Absent Absent Absent
    (Given false).

Definition stored_lower_third : Overlay.t :=
  Overlay.mk 1 "Lower Third" "text" 0 80 100 20 1.0 "#ff0000"
    (Some "Breaking News") false.

(** * Properties *)

Example serve_lower_third :
  (serve (POST_overlays lower_third) init).1
  = inr (Created (Overlay.mk 1 "Lower Third" "text" 0 80 100 20 1.0 "#ff0000"
                    (Some "Breaking News") true)).
Proof. reflexivity. Qed.

(** ** Parsing yields values that satisfy the declared constraints *)

Lemma required_Some {A} (ok : A -> bool) m v :
  required ok m = Some v -> m = Given v ∧ ok v = true.
Proof.
  destruct m as [| | |a]; simpl; try discriminate.
  destruct (ok a) eqn:E; [|discriminate]. intros [= <-]. done.
Qed.

Lemma defaulted_Some {A} (ok : A -> bool) d m v :
  defaulted ok d m = Some v ->
  (m = Absent ∧ v = d) ∨ (m = Given v ∧ ok v = true).
Proof.
  destruct m as [| | |a]; simpl; try discriminate.
  - intros [= <-]. by left.
  - destruct (ok a) eqn:E; [|discriminate]. intros [= <-]. by right.
Qed.

Lemma defaulted_ok {A} (ok : A -> bool) d m v :
  ok d = true -> defaulted ok d m = Some v -> ok v = true.
Proof. intros Hd [[_ ->]|[_ ?]]%defaulted_Some; done. Qed.

Lemma optional_Some {A} (ok : A -> bool) m o :
  optional ok m = Some o ->
  ((m = Absent ∨ m = Null) ∧ o = None) ∨ (∃ v, m = Given v ∧ o = Some v ∧ ok v = true).
Proof.
  destruct m as [| | |a]; simpl; try discriminate.
  - intros [= <-]. left. auto.
  - intros [= <-]. left. auto.
  - destruct (ok a) eqn:E; [|discriminate]. intros [= <-]. right. eauto.
Qed.

Lemma optional_holds {A} (ok : A -> bool) m o :
  optional ok m = Some o -> OverlayUpdate.holds ok o = true.
Proof. intros [[_ ->]|(v & _ & -> & ?)]%optional_Some; done. Qed.

Ltac split_binds H :=
  repeat
    (let v := fresh "v" in
     let E := fresh "E" in
     apply bind_Some in H as (v & E & H)).

Lemma OverlayCreate_fields_valid b p :
  OverlayCreate.fields b = Some p -> OverlayCreate.valid p = true.
Proof.
  unfold OverlayCreate.fields. intros H. split_binds H.
  injection H as <-. unfold OverlayCreate.valid. simpl.
  repeat match goal with
  | E : required _ _ = Some _ |- _ => apply required_Some in E as [_ ->]
  | E : defaulted ?ok _ _ = Some _ |- _ =>
      apply defaulted_ok in E; [rewrite ?E | reflexivity]
  end.
  reflexivity.
Qed.

Lemma OverlayCreate_parse_valid b p :
  OverlayCreate.parse b = inr p -> OverlayCreate.valid p = true.
Proof.
  unfold OverlayCreate.parse.
  destruct (OverlayCreate.fields b) as [q|] eqn:E; [|discriminate].
  intros [= <-]. by eapply OverlayCreate_fields_valid.
Qed.

Lemma OverlayUpdate_fields_valid b p :
  OverlayUpdate.fields b = Some p -> OverlayUpdate.valid p = true.
Proof.
  unfold OverlayUpdate.fields. intros H. split_binds H.
  injection H as <-. unfold OverlayUpdate.valid. simpl.
  repeat match goal with
  | E : optional _ _ = Some _ |- _ => apply optional_holds in E; rewrite ?E
  end.
  reflexivity.
Qed.

Lemma OverlayUpdate_parse_valid b p :
  OverlayUpdate.parse b = inr p -> OverlayUpdate.valid p = true.
Proof.
  unfold OverlayUpdate.parse.
  destruct (OverlayUpdate.fields b) as [q|] eqn:E; [|discriminate].
  intros [= <-]. by eapply OverlayUpdate_fields_valid.
Qed.

(** ** Construction of an [Overlay] from validated parts *)

Lemma Overlay_new_valid data :
  Overlay.valid data = true -> Overlay.new data = inr data.
Proof. unfold Overlay.new. by intros ->. Qed.

Lemma Overlay_new_inr data ov :
  Overlay.new data = inr ov -> ov = data ∧ Overlay.valid data = true.
Proof.
  unfold Overlay.new. destruct (Overlay.valid data); [|discriminate].
  by intros [= <-].
Qed.

Lemma create_data_valid n payload :
  OverlayCreate.valid payload = true -> Overlay.valid (create_data n payload) = true.
Proof. done. Qed.

Lemma holds_default {A} (ok : A -> bool) cur o :
  ok cur = true -> OverlayUpdate.holds ok o = true -> ok (default cur o) = true.
Proof. by destruct o. Qed.

Lemma update_data_valid ov payload :
  Overlay.valid ov = true -> OverlayUpdate.valid payload = true ->
  Overlay.valid (update_data ov payload) = true.
Proof.
  unfold Overlay.valid, OverlayUpdate.valid. simpl.
  rewrite !andb_true_iff.
  intros (((((((?&?)&?)&?)&?)&?)&?)&?) (((((((?&?)&?)&?)&?)&?)&?)&?).
  repeat split; by apply holds_default.
Qed.

Lemma update_data_empty ov : update_data ov OverlayUpdate.empty = ov.
Proof. by destruct ov. Qed.

(** ** What each handler does to the store *)

Lemma create_overlay_valid payload s :
  OverlayCreate.valid payload = true ->
  create_overlay payload s
  = (inr (create_data (_next_id s) payload),
     mkStore (_overlays s ++ [create_data (_next_id s) payload]) (_next_id s + 1)).
Proof.
  intros Hv. unfold create_overlay.
  by rewrite Overlay_new_valid by by apply create_data_valid.
Qed.


Lemma post_overlays_accepted body payload s :
  OverlayCreate.fields body = Some payload ->
  post_overlays body s
  = (inr (create_data (_next_id s) payload),
     mkStore (_overlays s ++ [create_data (_next_id s) payload]) (_next_id s + 1)).
Proof.
  intros H. unfold post_overlays, OverlayCreate.parse. rewrite H.
  apply create_overlay_valid. by eapply OverlayCreate_fields_valid.
Qed.

Lemma find_has_id overlay_id (l : list Overlay.t) idx ov :
  list_find (has_id overlay_id) l = Some (idx, ov) ->
  l !! idx = Some ov ∧ Overlay.id ov = overlay_id.
Proof. intros (? & ? & _)%list_find_Some. done. Qed.

(** With distinct ids, the search by id finds the overlay wherever it is. *)
Lemma find_by_id (l : list Overlay.t) idx ov :
  NoDup (Overlay.id <$> l) -> l !! idx = Some ov ->
  list_find (has_id (Overlay.id ov)) l = Some (idx, ov).
Proof.
  intros Hnd Hl. apply list_find_Some. split_and!; [done|done|].
  intros j z Hj Hlt Hz. unfold has_id in Hz.
  assert (j = idx) as -> ; [|lia].
  eapply NoDup_lookup; [exact Hnd| |].
  - rewrite list_lookup_fmap, Hj. simpl. by rewrite Hz.
  - by rewrite list_lookup_fmap, Hl.
Qed.

Lemma find_absent overlay_id (l : list Overlay.t) :
  overlay_id ∉ (Overlay.id <$> l) -> list_find (has_id overlay_id) l = None.
Proof.
  intros Hn. apply list_find_None, Forall_forall. intros ov Hov Hid.
  apply Hn. unfold has_id in Hid. subst overlay_id. by apply list_elem_of_fmap_2.
Qed.

Lemma ids_insert_same (l : list Overlay.t) idx ov updated :
  l !! idx = Some ov -> Overlay.id updated = Overlay.id ov ->
  Overlay.id <$> <[idx := updated]> l = Overlay.id <$> l.
Proof.
  intros Hl Hid. rewrite list_fmap_insert. apply list_insert_id.
  by rewrite list_lookup_fmap, Hl, Hid.
Qed.

(** ** The store invariant *)

Lemma store_inv_init : store_inv init.
Proof. split; simpl; [constructor|constructor|constructor|lia]. Qed.

Lemma fresh_not_stored s :
  store_inv s -> _next_id s ∉ (Overlay.id <$> _overlays s).
Proof.
  intros [_ _ Hf _] (ov & Hid & Hov)%list_elem_of_fmap.
  rewrite Forall_forall in Hf. specialize (Hf _ Hov). lia.
Qed.

Lemma store_inv_create payload s :
  OverlayCreate.valid payload = true -> store_inv s ->
  store_inv (create_overlay payload s).2.
Proof.
  intros Hv Hs. rewrite create_overlay_valid by done. simpl.
  pose proof (fresh_not_stored s Hs) as Hfresh.
  destruct Hs as [Hnd Hval Hf Hn]. split; simpl.
  - rewrite fmap_app. simpl. apply NoDup_app. split_and!; [done| |apply NoDup_singleton].
    intros i Hi ->%list_elem_of_singleton. done.
  - apply Forall_app. split; [done|]. apply Forall_singleton.
    by apply create_data_valid.
  - apply Forall_app. split.
    + eapply Forall_impl; [exact Hf|]. simpl. intros; lia.
    + apply Forall_singleton. simpl. lia.
  - lia.
Qed.

Lemma store_inv_update overlay_id payload s :
  store_inv s -> store_inv (update_overlay overlay_id payload s).2.
Proof.
  intros Hs. unfold update_overlay.
  destruct (list_find _ _) as [[idx ov]|] eqn:Hfind; [|done].
  destruct (Overlay.new _) as [e|updated] eqn:Hnew; [done|]. simpl.
  apply Overlay_new_inr in Hnew as [-> Hv].
  apply find_has_id in Hfind as [Hl _].
  destruct Hs as [Hnd Hval Hf Hn]. split; simpl.
  - by erewrite ids_insert_same.
  - by apply Forall_insert.
  - apply Forall_insert; [done|]. simpl.
    by apply (Forall_lookup_1 _ _ _ _ Hf Hl).
  - done.
Qed.

Lemma store_inv_delete overlay_id s :
  store_inv s -> store_inv (delete_overlay overlay_id s).2.
Proof.
  intros Hs. unfold delete_overlay.
  destruct (list_find _ _) as [[idx ov]|] eqn:Hfind; [|done]. simpl.
  destruct Hs as [Hnd Hval Hf Hn]. split; simpl.
  - rewrite list_fmap_delete. eapply sublist_NoDup; [exact Hnd|apply sublist_delete].
  - by apply Forall_delete.
  - by apply Forall_delete.
  - done.
Qed.

Lemma store_inv_serve r s : store_inv s -> store_inv (serve r s).2.
Proof.
  intros Hs. destruct r as [|body| |overlay_id body|overlay_id]; simpl; try done.
  - unfold post_overlays, OverlayCreate.parse.
    destruct (OverlayCreate.fields body) as [payload|] eqn:E; [|done].
    pose proof (store_inv_create payload s (OverlayCreate_fields_valid _ _ E) Hs).
    by destruct (create_overlay payload s).
  - unfold put_overlay. destruct (OverlayUpdate.parse body) as [e|payload]; [done|].
    pose proof (store_inv_update overlay_id payload s Hs).
    by destruct (update_overlay overlay_id payload s).
  - pose proof (store_inv_delete overlay_id s Hs).
    by destruct (delete_overlay overlay_id s).
Qed.

Lemma store_inv_exec rs s : store_inv s -> store_inv (exec rs s).
Proof.
  revert s. induction rs as [|r rs IH]; intros s Hs; simpl; [done|].
  by apply IH, store_inv_serve.
Qed.

Lemma reachable_inv s : reachable s -> store_inv s.
Proof. intros [rs ->]. apply store_inv_exec, store_inv_init. Qed.

(** ** The field constraints, as the data model states them *)

Lemma confloat_within lo hi v : confloat lo hi v = true ↔ within lo hi v.
Proof. unfold confloat, within. by rewrite andb_true_iff. Qed.

Lemma constr_bounded lo hi v :
  constr lo (Some hi) v = true ↔ (lo <= String.length v <= hi)%nat.
Proof.
  unfold constr. rewrite andb_true_iff, !Nat.leb_le. done.
Qed.

Lemma constr_unbounded lo v :
  constr lo None v = true ↔ (lo <= String.length v)%nat.
Proof.
  unfold constr. by rewrite andb_true_r, Nat.leb_le.
Qed.

Lemma valid_meets_constraints ov :
  Overlay.valid ov = true ↔ meets_constraints ov.
Proof.
  unfold Overlay.valid, name_ok, type_ok, percent_ok, opacity_ok, color_ok.
  rewrite !andb_true_iff, !confloat_within, constr_bounded, !constr_unbounded.
  split.
  - intros (((((((?&?)&?)&?)&?)&?)&?)&?). by split.
  - intros [[??] ? [??] [??] [??] [??] [??] ?]. split_and!; done.
Qed.

Example sample_store_ids : Overlay.id <$> _overlays sample_store = [1; 2].
Proof. reflexivity. Qed.

(** C8: in every state reached from the empty store by any sequence of List,
    Create, Get, Update and Delete requests (with any bodies, valid or not),
    the ids of the stored overlays are pairwise distinct and every stored
    overlay meets all the field constraints. *)
Theorem reachable_ids_distinct_and_overlays_valid s :
  reachable s ->
  NoDup (Overlay.id <$> _overlays s) ∧ Forall meets_constraints (_overlays s).
Proof.
  intros [Hnd Hval _ _]%reachable_inv. split; [done|].
  eapply Forall_impl; [exact Hval|]. intros ov. apply valid_meets_constraints.
Qed.

Lemma reachable_ids_distinct_and_overlays_valid_witness :
  NoDup (Overlay.id <$> _overlays sample_store)
  ∧ Forall meets_constraints (_overlays sample_store).
Proof.
  apply (reachable_ids_distinct_and_overlays_valid sample_store).
  exists sample_requests. reflexivity.
Defined.

(** ** Omitted members and members sent as [null] *)

Lemma OverlayUpdate_parse_omit_nullify f b :
  OverlayUpdate.parse (omit f b) = OverlayUpdate.parse (nullify f b).
Proof. by destruct f. Qed.

Lemma carries_non_finite_omit_nullify f b :
  carries_non_finite (omit f b) = carries_non_finite (nullify f b).
Proof. by destruct f. Qed.

Lemma put_overlay_omit_nullify overlay_id f b s :
  put_overlay overlay_id (omit f b) s = put_overlay overlay_id (nullify f b) s.
Proof.
  unfold put_overlay, rendered.
  by rewrite OverlayUpdate_parse_omit_nullify, carries_non_finite_omit_nullify.
Qed.

(** Sending [content: null] does not clear the content. *)
Example null_content_keeps_content :
  let s := exec [POST_overlays lower_third] init in
  (put_overlay 1 (nullify f_content Body.empty) s).1
  = inr (Overlay.mk 1 "Lower Third" "text" 0 80 100 20 1.0 "#ff0000"
           (Some "Breaking News") true).
Proof. reflexivity. Qed.

(** C1, as stated, fails: no store, overlay id, body and field exist for which
    the update that omits the field and the update that sends it as [null]
    differ, in the response or in the resulting store. *)
Lemma no_update_tells_null_from_omitted :
  ¬ ∃ s overlay_id b f,
      put_overlay overlay_id (omit f b) s ≠ put_overlay overlay_id (nullify f b) s.
Proof.
  intros (s & overlay_id & b & f & Hne). apply Hne, put_overlay_omit_nullify.
Qed.

(** C1, amended: Update treats a member sent as [null] exactly as an omitted
    member.  Two update bodies for the same overlay that differ only in that
    one omits a field and the other sends it as [null] produce the same
    response and the same store; the handler itself receives a model in which
    both are the same value [None], so presence is not tracked. *)
Theorem update_null_is_omission s overlay_id b f :
  put_overlay overlay_id (omit f b) s = put_overlay overlay_id (nullify f b) s
  ∧ serve (PUT_overlay overlay_id (omit f b)) s
    = serve (PUT_overlay overlay_id (nullify f b)) s
  ∧ OverlayUpdate.parse (omit f b) = OverlayUpdate.parse (nullify f b).
Proof.
  split_and!.
  - apply put_overlay_omit_nullify.
  - simpl. by rewrite put_overlay_omit_nullify.
  - apply OverlayUpdate_parse_omit_nullify.
Qed.

(** ** Rejected creations *)








Example too_opaque_names_opacity :
  (post_overlays too_opaque init).1 = inl (ValidationError ["opacity"]).
Proof. reflexivity. Qed.

(** ** Ids handed out along a run *)

Lemma serve_created r s ov :
  (serve r s).1 = inr (Created ov) ->
  Overlay.id ov = _next_id s ∧ _next_id (serve r s).2 = _next_id s + 1.
Proof.
  destruct r as [|body|overlay_id|overlay_id body|overlay_id]; simpl.
  - discriminate.
  - unfold post_overlays, OverlayCreate.parse.
    destruct (OverlayCreate.fields body) as [payload|] eqn:E; [|discriminate].
    rewrite create_overlay_valid by by eapply OverlayCreate_fields_valid.
    simpl. by intros [= <-].
  - destruct (get_overlay overlay_id s); discriminate.
  - destruct (put_overlay overlay_id body s) as [[e|u] s']; discriminate.
  - destruct (delete_overlay overlay_id s) as [[e|u] s']; discriminate.
Qed.

Lemma serve_not_created r s :
  (∀ ov, (serve r s).1 ≠ inr (Created ov)) -> _next_id (serve r s).2 = _next_id s.
Proof.
  destruct r as [|body|overlay_id|overlay_id body|overlay_id]; simpl; try done.
  - unfold post_overlays, OverlayCreate.parse.
    destruct (OverlayCreate.fields body) as [payload|] eqn:E; [|done].
    rewrite create_overlay_valid by by eapply OverlayCreate_fields_valid.
    simpl. intros H. by destruct (H (create_data (_next_id s) payload)).
  - intros _. unfold put_overlay.
    destruct (OverlayUpdate.parse body) as [e|payload]; [done|].
    unfold update_overlay. destruct (list_find _ _) as [[idx ov]|]; [|done].
    by destruct (Overlay.new _).
  - intros _. unfold delete_overlay. by destruct (list_find _ _) as [[idx ov]|].
Qed.

(** The counter after a run is the counter before it plus the number of
    successful creations. *)
Lemma next_id_exec rs s :
  _next_id (exec rs s) = _next_id s + Z.of_nat (length (created_ids rs s)).
Proof.
  revert s. induction rs as [|r rs IH]; intros s; simpl; [lia|].
  destruct (serve r s).1 as [e|[l|ov|ov|ov|]] eqn:E;
    rewrite IH; simpl;
    try (rewrite serve_not_created by (intros ov'; rewrite E; discriminate); lia).
  apply serve_created in E as [_ ->]. lia.
Qed.

Lemma created_ids_increasing rs s :
  StronglySorted Z.lt (created_ids rs s)
  ∧ Forall (λ i, _next_id s <= i) (created_ids rs s).
Proof.
  revert s. induction rs as [|r rs IH]; intros s; simpl.
  { split; constructor. }
  destruct (IH (serve r s).2) as [Hs Hf].
  destruct (serve r s).1 as [e|[l|ov|ov|ov|]] eqn:E;
    try (rewrite serve_not_created in Hf by (intros ov'; rewrite E; discriminate);
         by split).
  apply serve_created in E as [-> Hn]. rewrite Hn in Hf. split.
  - constructor; [done|]. eapply Forall_impl; [exact Hf|]. simpl. intros; lia.
  - constructor; [lia|]. eapply Forall_impl; [exact Hf|]. simpl. intros; lia.
Qed.

Lemma increasing_NoDup (l : list Z) : StronglySorted Z.lt l -> NoDup l.
Proof.
  induction 1 as [|i l _ IH Hall]; constructor; [|done].
  intros Hin. rewrite Forall_forall in Hall. specialize (Hall _ Hin). lia.
Qed.

(** C2: along every sequence of Create and Delete requests from the empty
    store, the ids assigned by the successive creations are strictly
    increasing and no id is assigned twice, wherever the deletions fall. *)
Theorem created_ids_strictly_increasing rs :
  forallb create_or_delete rs = true ->
  StronglySorted Z.lt (created_ids rs init) ∧ NoDup (created_ids rs init).
Proof.
  intros _. destruct (created_ids_increasing rs init) as [Hs _].
  split; [done|]. by apply increasing_NoDup.
Qed.

Example interleaved_ids : created_ids interleaved init = [1; 2; 3; 4].
Proof. reflexivity. Qed.

Example interleaved_store : Overlay.id <$> _overlays (exec interleaved init) = [3; 4].
Proof. reflexivity. Qed.

Lemma created_ids_strictly_increasing_witness :
  StronglySorted Z.lt (created_ids interleaved init)
  ∧ NoDup (created_ids interleaved init).
Proof. apply (created_ids_strictly_increasing interleaved). reflexivity. Defined.

(** ** Create *)

(** C5: in every reachable store state and for every valid Create payload,
    Create succeeds and a Get of the returned id then succeeds and yields the
    very overlay Create returned. *)
Theorem create_then_get_round_trip s payload :
  reachable s -> OverlayCreate.valid payload = true ->
  ∃ ov s',
    create_overlay payload s = (inr ov, s')
    ∧ get_overlay (Overlay.id ov) s' = inr ov.
Proof.
  intros Hs%reachable_inv Hv.
  pose proof (store_inv_create payload s Hv Hs) as [Hnd _ _ _].
  rewrite create_overlay_valid in Hnd |- * by done. simpl in Hnd.
  set (ov := create_data (_next_id s) payload) in *.
  eexists _, _. split; [reflexivity|].
  unfold get_overlay. cbn [_overlays].
  rewrite (find_by_id _ (length (_overlays s)) ov Hnd); [done|].
  by apply list_lookup_middle.
Qed.

Lemma create_then_get_round_trip_witness :
  ∃ ov s',
    create_overlay valid_logo sample_store = (inr ov, s')
    ∧ get_overlay (Overlay.id ov) s' = inr ov.
Proof.
  apply (create_then_get_round_trip sample_store valid_logo).
  - exists sample_requests. reflexivity.
  - reflexivity.
Defined.

Lemma defaulted_filled {A} (ok : A -> bool) d m v :
  defaulted ok d m = Some v -> filled m d v.
Proof. intros [[-> ->]|[-> _]]%defaulted_Some; done. Qed.

Lemma optional_filled {A} (ok : A -> bool) m v :
  optional ok m = Some v -> filled_optional m v.
Proof. intros [[[->| ->] ->]|(a & -> & -> & _)]%optional_Some; done. Qed.

Lemma OverlayCreate_fields_from_body b payload n :
  OverlayCreate.fields b = Some payload -> from_body b (create_data n payload).
Proof.
  unfold OverlayCreate.fields. intros H. split_binds H. injection H as <-.
  repeat match goal with
  | E : required _ _ = Some _ |- _ => apply required_Some in E as [E _]
  | E : defaulted _ _ _ = Some _ |- _ => apply defaulted_filled in E
  | E : optional _ _ = Some _ |- _ => apply optional_filled in E
  end.
  by split.
Qed.

(** C6: after any sequence of requests from the empty store, a Create with a
    valid body succeeds (there is no error path), returns an overlay whose id
    is the counter's value, which is 1 plus the number of creations that
    succeeded before (so 1 for the first, one more for each next, and never
    an id handed out or stored before), appends that overlay at the end of
    the collection, advances the counter by one, and builds the overlay from
    the body with every omitted member replaced by its default (x=10.0,
    y=10.0, w=20.0, h=10.0, opacity=1.0, color="#ff0000", no content,
    visible=true). *)
Theorem create_assigns_next_id_and_defaults rs body payload :
  OverlayCreate.parse body = inr payload ->
  ∃ ov,
    post_overlays body (exec rs init)
    = (inr ov, mkStore (_overlays (exec rs init) ++ [ov]) (_next_id (exec rs init) + 1))
    ∧ serve (POST_overlays body) (exec rs init)
      = (inr (Created ov),
         mkStore (_overlays (exec rs init) ++ [ov]) (_next_id (exec rs init) + 1))
    ∧ Overlay.id ov = _next_id (exec rs init)
    ∧ Overlay.id ov = 1 + Z.of_nat (length (created_ids rs init))
    ∧ (Overlay.id ov ∉ created_ids rs init)
    ∧ (Overlay.id ov ∉ (Overlay.id <$> _overlays (exec rs init)))
    ∧ from_body body ov.
Proof.
  unfold OverlayCreate.parse.
  destruct (OverlayCreate.fields body) as [p|] eqn:E; [|discriminate].
  intros [= ->]. set (s := exec rs init).
  exists (create_data (_next_id s) payload).
  assert (_next_id s = 1 + Z.of_nat (length (created_ids rs init))) as Hn.
  { unfold s. by rewrite next_id_exec. }
  split_and!.
  - by apply post_overlays_accepted.
  - simpl. by erewrite post_overlays_accepted.
  - done.
  - done.
  - simpl. intros Hin.
    assert (created_ids rs init ++ created_ids [POST_overlays body] s
            = created_ids (rs ++ [POST_overlays body]) init) as Happ.
    { unfold s. clear. generalize init. induction rs as [|r rs IH]; intros s0; [done|].
      simpl. destruct (serve r s0).1 as [e|[l|ov|ov|ov|]]; simpl; by rewrite IH. }
    pose proof (created_ids_increasing (rs ++ [POST_overlays body]) init) as [Hs _].
    apply increasing_NoDup in Hs. rewrite <- Happ in Hs.
    apply NoDup_app in Hs as (_ & Hdisj & _). apply (Hdisj _ Hin).
    simpl. erewrite post_overlays_accepted by done. simpl. left.
  - simpl. apply fresh_not_stored, store_inv_exec, store_inv_init.
  - by apply OverlayCreate_fields_from_body.
Qed.

Lemma create_assigns_next_id_and_defaults_witness :
  ∃ ov,
    post_overlays logo (exec sample_requests init)
    = (inr ov, mkStore (_overlays (exec sample_requests init) ++ [ov])
                 (_next_id (exec sample_requests init) + 1))
    ∧ serve (POST_overlays logo) (exec sample_requests init)
      = (inr (Created ov),
         mkStore (_overlays (exec sample_requests init) ++ [ov])
           (_next_id (exec sample_requests init) + 1))
    ∧ Overlay.id ov = _next_id (exec sample_requests init)
    ∧ Overlay.id ov = 1 + Z.of_nat (length (created_ids sample_requests init))
    ∧ (Overlay.id ov ∉ created_ids sample_requests init)
    ∧ (Overlay.id ov ∉ (Overlay.id <$> _overlays (exec sample_requests init)))
    ∧ from_body logo ov.
Proof.
  apply (create_assigns_next_id_and_defaults sample_requests logo valid_logo).
  reflexivity.
Defined.

Example first_create_gets_id_1 :
  (post_overlays logo init).1
  = inr (Overlay.mk 1 "Logo" "image" 10.0 10.0 20.0 10.0 0.5 "#ff0000" None true).
Proof. reflexivity. Qed.

(** ** Update *)

Lemma supplied_or_kept_default {A} (p : option A) old :
  supplied_or_kept p old (default old p).
Proof. by destruct p. Qed.

Lemma update_data_merged ov payload : merged payload ov (update_data ov payload).
Proof.
  split; simpl; try apply supplied_or_kept_default; [done|].
  by destruct (OverlayUpdate.content payload).
Qed.

(** What Update does on a store with distinct ids and valid overlays. *)
Lemma update_overlay_found s idx ov payload :
  store_inv s -> _overlays s !! idx = Some ov ->
  OverlayUpdate.valid payload = true ->
  update_overlay (Overlay.id ov) payload s
  = (inr (update_data ov payload),
     mkStore (<[idx := update_data ov payload]> (_overlays s)) (_next_id s)).
Proof.
  intros [Hnd Hval _ _] Hl Hv. unfold update_overlay.
  rewrite (find_by_id _ idx ov Hnd Hl).
  rewrite Overlay_new_valid; [done|].
  apply update_data_valid; [|done]. by apply (Forall_lookup_1 _ _ _ _ Hval Hl).
Qed.

Example sample_store_logo : _overlays sample_store !! 1%nat = Some stored_logo.
Proof. reflexivity. Qed.

(** C3: for every overlay O stored at some position of a reachable store and
    every valid partial payload, Update(O.id, payload) succeeds, returns
    and stores at that same position an overlay that has O's id, the payload's
    value on every supplied field and O's value on every other field; the
    other positions, the length of the collection and the id counter are
    unchanged. *)
Theorem update_keeps_unsupplied_fields s idx O payload :
  reachable s -> _overlays s !! idx = Some O ->
  OverlayUpdate.valid payload = true ->
  ∃ updated s',
    update_overlay (Overlay.id O) payload s = (inr updated, s')
    ∧ merged payload O updated
    ∧ _overlays s' !! idx = Some updated
    ∧ (∀ j, j ≠ idx -> _overlays s' !! j = _overlays s !! j)
    ∧ length (_overlays s') = length (_overlays s)
    ∧ _next_id s' = _next_id s.
Proof.
  intros Hs%reachable_inv Hl Hv.
  eexists _, _. split; [by apply (update_overlay_found s idx O payload)|].
  cbn [_overlays _next_id]. split_and!.
  - apply update_data_merged.
  - apply list_lookup_insert_eq. by eapply lookup_lt_Some.
  - intros j Hj. by apply list_lookup_insert_ne.
  - apply length_insert.
  - done.
Qed.

Lemma update_keeps_unsupplied_fields_witness :
  ∃ updated s',
    update_overlay (Overlay.id stored_logo) only_x sample_store = (inr updated, s')
    ∧ merged only_x stored_logo updated
    ∧ _overlays s' !! 1%nat = Some updated
    ∧ (∀ j, j ≠ 1%nat -> _overlays s' !! j = _overlays sample_store !! j)
    ∧ length (_overlays s') = length (_overlays sample_store)
    ∧ _next_id s' = _next_id sample_store.
Proof.
  apply (update_keeps_unsupplied_fields sample_store 1%nat stored_logo only_x).
  - exists sample_requests. reflexivity.
  - reflexivity.
  - reflexivity.
Defined.

Example update_only_x :
  (update_overlay 2 only_x sample_store).1
  = inr (Overlay.mk 2 "Logo" "image" 5 10.0 20.0 10.0 0.5 "#ff0000" None true).
Proof. reflexivity. Qed.

(** C9: for every overlay id present in a reachable store, an Update whose
    payload omits every field succeeds, returns the stored overlay of that id
    as it is, and leaves the whole store (collection and id counter) as it
    was; the same holds for the request with the empty body. *)
Theorem update_with_empty_payload_is_identity s overlay_id :
  reachable s -> overlay_id ∈ (Overlay.id <$> _overlays s) ->
  ∃ ov,
    ov ∈ _overlays s
    ∧ Overlay.id ov = overlay_id
    ∧ update_overlay overlay_id OverlayUpdate.empty s = (inr ov, s)
    ∧ put_overlay overlay_id Body.empty s = (inr ov, s).
Proof.
  intros Hs%reachable_inv (ov & -> & Hin)%list_elem_of_fmap.
  apply list_elem_of_lookup in Hin as Hl. destruct Hl as [idx Hl].
  assert (update_overlay (Overlay.id ov) OverlayUpdate.empty s = (inr ov, s)) as Hu.
  { rewrite (update_overlay_found s idx ov) by done.
    rewrite update_data_empty, list_insert_id by done. by destruct s. }
  exists ov. split_and!; [done|done|done|].
  unfold put_overlay. by change (OverlayUpdate.parse Body.empty) with
    (inr (A:=error) OverlayUpdate.empty).
Qed.

Lemma update_with_empty_payload_is_identity_witness :
  ∃ ov,
    ov ∈ _overlays sample_store
    ∧ Overlay.id ov = 2
    ∧ update_overlay 2 OverlayUpdate.empty sample_store = (inr ov, sample_store)
    ∧ put_overlay 2 Body.empty sample_store = (inr ov, sample_store).
Proof.
  apply (update_with_empty_payload_is_identity sample_store 2).
  - exists sample_requests. reflexivity.
  - apply (list_elem_of_lookup_2 _ 1%nat). reflexivity.
Defined.

(** ** Delete *)

Lemma delete_split (l : list Overlay.t) idx ov :
  l !! idx = Some ov ->
  l = take idx l ++ ov :: drop (S idx) l
  ∧ delete idx l = take idx l ++ drop (S idx) l
  ∧ length (take idx l) = idx.
Proof.
  intros Hl. split_and!.
  - by rewrite take_drop_middle.
  - apply delete_take_drop.
  - apply length_take_le. apply lookup_lt_Some in Hl. lia.
Qed.

Lemma id_gone_after_removal (before after : list Overlay.t) ov :
  NoDup (Overlay.id <$> before ++ ov :: after) ->
  Overlay.id ov ∉ (Overlay.id <$> before ++ after).
Proof.
  rewrite !fmap_app, fmap_cons.
  intros (_ & Hdisj & [Hafter _]%NoDup_cons)%NoDup_app.
  intros [Hin|Hin]%elem_of_app; [|done].
  apply (Hdisj _ Hin). left.
Qed.

(** C7: in every reachable store state, deleting the id of a stored overlay
    removes exactly that element: the collection before it and after it is
    kept in order and the length drops by one; the reply is 204 without a
    body, the id counter is untouched, and a following Get of the id raises
    the not-found error.  Deleting an id that no stored overlay has raises
    the not-found error and leaves the store as it was. *)
Theorem delete_removes_exactly_that_overlay s overlay_id :
  reachable s ->
  (∀ idx ov,
     _overlays s !! idx = Some ov -> Overlay.id ov = overlay_id ->
     ∃ before after s',
       _overlays s = before ++ ov :: after
       ∧ length before = idx
       ∧ delete_overlay overlay_id s = (inr tt, s')
       ∧ serve (DELETE_overlay overlay_id) s = (inr NoContent, s')
       ∧ _overlays s' = before ++ after
       ∧ S (length (_overlays s')) = length (_overlays s)
       ∧ _next_id s' = _next_id s
       ∧ get_overlay overlay_id s' = inl NotFoundError)
  ∧ (overlay_id ∉ (Overlay.id <$> _overlays s) ->
     delete_overlay overlay_id s = (inl NotFoundError, s)
     ∧ serve (DELETE_overlay overlay_id) s = (inl NotFoundError, s)).
Proof.
  intros [Hnd _ _ _]%reachable_inv. split.
  - intros idx ov Hl <-.
    destruct (delete_split _ _ _ Hl) as (Hsplit & Hdel & Hlen).
    assert (delete_overlay (Overlay.id ov) s
            = (inr tt, mkStore (delete idx (_overlays s)) (_next_id s))) as Hd.
    { unfold delete_overlay. by rewrite (find_by_id _ idx ov Hnd Hl). }
    exists (take idx (_overlays s)), (drop (S idx) (_overlays s)),
      (mkStore (delete idx (_overlays s)) (_next_id s)).
    split_and!; [done|done|exact Hd| | | | |].
    + simpl. by rewrite Hd.
    + done.
    + cbn [_overlays]. rewrite length_delete by done.
      apply lookup_lt_Some in Hl. lia.
    + done.
    + unfold get_overlay. cbn [_overlays]. rewrite find_absent; [done|].
      rewrite Hdel. apply id_gone_after_removal. by rewrite <- Hsplit.
  - intros Hout.
    assert (delete_overlay overlay_id s = (inl NotFoundError, s)) as Hd.
    { unfold delete_overlay. by rewrite find_absent. }
    split; [done|]. simpl. by rewrite Hd.
Qed.

Example delete_middle :
  Overlay.id <$> _overlays (delete_overlay 2 (exec three_overlays init)).2 = [1; 3].
Proof. reflexivity. Qed.

Example get_deleted :
  get_overlay 2 (delete_overlay 2 (exec three_overlays init)).2 = inl NotFoundError.
Proof. reflexivity. Qed.

Lemma delete_removes_exactly_that_overlay_witness :
  (∀ idx ov,
     _overlays (exec three_overlays init) !! idx = Some ov -> Overlay.id ov = 2 ->
     ∃ before after s',
       _overlays (exec three_overlays init) = before ++ ov :: after
       ∧ length before = idx
       ∧ delete_overlay 2 (exec three_overlays init) = (inr tt, s')
       ∧ serve (DELETE_overlay 2) (exec three_overlays init) = (inr NoContent, s')
       ∧ _overlays s' = before ++ after
       ∧ S (length (_overlays s')) = length (_overlays (exec three_overlays init))
       ∧ _next_id s' = _next_id (exec three_overlays init)
       ∧ get_overlay 2 s' = inl NotFoundError)
  ∧ (2 ∉ (Overlay.id <$> _overlays (exec three_overlays init)) ->
     delete_overlay 2 (exec three_overlays init)
     = (inl NotFoundError, exec three_overlays init)
     ∧ serve (DELETE_overlay 2) (exec three_overlays init)
       = (inl NotFoundError, exec three_overlays init)).
Proof.
  apply (delete_removes_exactly_that_overlay (exec three_overlays init) 2).
  exists three_overlays. reflexivity.
Defined.

(** ** The candidate built by Update *)

(** C10: when every stored overlay meets the field constraints and every
    field the payload sets meets its own constraint, the merged candidate
    that Update builds from any stored overlay meets every constraint of the
    Overlay model, so constructing it does not fail: Update either succeeds
    or raises the not-found error, and it raises that one exactly when no
    stored overlay has the id. *)
Theorem update_candidate_meets_constraints s overlay_id payload :
  Forall meets_constraints (_overlays s) ->
  OverlayUpdate.valid payload = true ->
  (∀ ov, ov ∈ _overlays s ->
     meets_constraints (update_data ov payload)
     ∧ Overlay.new (update_data ov payload) = inr (update_data ov payload))
  ∧ (∀ e, (update_overlay overlay_id payload s).1 = inl e ->
       e = NotFoundError ∧ overlay_id ∉ (Overlay.id <$> _overlays s)).
Proof.
  intros Hall Hv.
  assert (∀ ov, ov ∈ _overlays s -> Overlay.valid (update_data ov payload) = true) as Hok.
  { intros ov Hin. apply update_data_valid; [|done].
    rewrite Forall_forall in Hall. by apply valid_meets_constraints, Hall. }
  split.
  - intros ov Hin. split.
    + by apply valid_meets_constraints, Hok.
    + by apply Overlay_new_valid, Hok.
  - intros e. unfold update_overlay.
    destruct (list_find _ _) as [[idx ov]|] eqn:Hfind.
    + apply find_has_id in Hfind as [Hl _].
      rewrite Overlay_new_valid; [discriminate|].
      apply Hok. by eapply list_elem_of_lookup_2.
    + simpl. intros [= <-]. split; [done|].
      rewrite list_find_None, Forall_forall in Hfind.
      intros (ov & -> & Hin)%list_elem_of_fmap. by apply (Hfind ov).
Qed.

Lemma update_candidate_meets_constraints_witness :
  (∀ ov, ov ∈ _overlays sample_store ->
     meets_constraints (update_data ov only_x)
     ∧ Overlay.new (update_data ov only_x) = inr (update_data ov only_x))
  ∧ (∀ e, (update_overlay 9 only_x sample_store).1 = inl e ->
       e = NotFoundError ∧ 9 ∉ (Overlay.id <$> _overlays sample_store)).
Proof.
  apply (update_candidate_meets_constraints sample_store 9 only_x).
  - repeat constructor.
  - reflexivity.
Defined.

(** * Further properties of the handlers *)

(** ** Errors have no effect on the store *)

(** X1: every handler raises before it writes: whatever the store and the
    request, a reply that is an error comes with the store as it was. *)
Theorem error_leaves_store_unchanged r s e :
  (serve r s).1 = inl e -> (serve r s).2 = s.
Proof.
  destruct r as [|body|overlay_id|overlay_id body|overlay_id]; simpl; try done.
  - unfold post_overlays. destruct (OverlayCreate.parse body) as [e'|payload]; [done|].
    unfold create_overlay. by destruct (Overlay.new _).
  - unfold put_overlay. destruct (OverlayUpdate.parse body) as [e'|payload]; [done|].
    unfold update_overlay. destruct (list_find _ _) as [[idx ov]|]; [|done].
    by destruct (Overlay.new _).
  - unfold delete_overlay. by destruct (list_find _ _) as [[idx ov]|].
Qed.

Lemma error_leaves_store_unchanged_witness :
  (serve (PUT_overlay 7 hide) sample_store).2 = sample_store.
Proof.
  apply (error_leaves_store_unchanged (PUT_overlay 7 hide) sample_store NotFoundError).
  reflexivity.
Defined.

(** ** No uncaught model error *)





(** ** The listing is the surviving creations, in creation order *)

Lemma serve_ids r s :
  match (serve r s).1 with
  | inr (Created ov) =>
      Overlay.id <$> _overlays (serve r s).2 = (Overlay.id <$> _overlays s) ++ [Overlay.id ov]
  | _ => (Overlay.id <$> _overlays (serve r s).2) `sublist_of` (Overlay.id <$> _overlays s)
  end.
Proof.
  destruct r as [|body|overlay_id|overlay_id body|overlay_id]; simpl.
  - reflexivity.
  - unfold post_overlays, OverlayCreate.parse.
    destruct (OverlayCreate.fields body) as [payload|] eqn:E; [|simpl; reflexivity].
    rewrite create_overlay_valid by by eapply OverlayCreate_fields_valid.
    simpl. by rewrite fmap_app.
  - destruct (get_overlay overlay_id s); simpl; reflexivity.
  - unfold put_overlay.
    destruct (OverlayUpdate.parse body) as [e'|payload]; [simpl; reflexivity|].
    unfold update_overlay.
    destruct (list_find _ _) as [[idx ov]|] eqn:Hf; [|simpl; reflexivity].
    destruct (Overlay.new _) as [e'|updated] eqn:Hnew; [simpl; reflexivity|]. simpl.
    apply Overlay_new_inr in Hnew as [-> _]. apply find_has_id in Hf as [Hl _].
    by erewrite ids_insert_same.
  - unfold delete_overlay. destruct (list_find _ _) as [[idx ov]|]; [|simpl; reflexivity].
    simpl. rewrite list_fmap_delete. apply sublist_delete.
Qed.

Lemma stored_ids_sublist rs s :
  (Overlay.id <$> _overlays (exec rs s))
    `sublist_of` ((Overlay.id <$> _overlays s) ++ created_ids rs s).
Proof.
  revert s. induction rs as [|r rs IH]; intros s; simpl.
  { by rewrite app_nil_r. }
  pose proof (serve_ids r s) as Hr. specialize (IH (serve r s).2).
  destruct (serve r s).1 as [e|[l|ov|ov|ov|]];
    try (etrans; [exact IH|]; by apply sublist_app).
  rewrite Hr, <- app_assoc in IH. exact IH.
Qed.

Lemma sublist_increasing (l k : list Z) :
  l `sublist_of` k -> StronglySorted Z.lt k -> StronglySorted Z.lt l.
Proof.
  induction 1 as [|x l k Hsub IH|x l k Hsub IH]; intros Hk; [done| |].
  - apply StronglySorted_inv in Hk as [Hk Hall]. constructor; [by apply IH|].
    rewrite Forall_forall in Hall |- *. intros y Hy. apply Hall.
    by eapply elem_of_sublist.
  - apply StronglySorted_inv in Hk as [Hk _]. by apply IH.
Qed.

(** X3: after any sequence of requests from the empty store, the ids of the
    listed overlays are a subsequence of the ids handed out by the successful
    creations, in the same order: the listing holds only overlays that were
    created, each at most once, oldest first, so its ids strictly increase. *)
Theorem listing_is_subsequence_of_creations rs :
  (Overlay.id <$> list_overlays (exec rs init)) `sublist_of` created_ids rs init
  ∧ StronglySorted Z.lt (Overlay.id <$> list_overlays (exec rs init)).
Proof.
  pose proof (stored_ids_sublist rs init) as Hsub. simpl in Hsub.
  split; [done|]. eapply sublist_increasing; [exact Hsub|].
  apply created_ids_increasing.
Qed.

(** X4: in every reachable store each stored id lies between 1 and the id
    counter, the counter excluded: the id the next creation hands out is
    larger than every id in the collection. *)
Theorem reachable_ids_below_counter s :
  reachable s ->
  Forall (λ ov, 1 <= Overlay.id ov < _next_id s) (_overlays s)
  ∧ Z.of_nat (length (_overlays s)) < _next_id s.
Proof.
  intros [Hnd _ Hf Hn]%reachable_inv. split; [done|].
  assert (∀ (l : list Z) n, 1 <= n -> NoDup l -> Forall (λ i, 1 <= i < n) l ->
            Z.of_nat (length l) < n) as Hcount.
  { clear. intros l n Hn Hnd Hall.
    assert (l ⊆ seqZ 1 (n - 1)) as Hincl.
    { intros i Hi. rewrite Forall_forall in Hall. specialize (Hall i Hi).
      apply elem_of_seqZ. lia. }
    apply NoDup_submseteq, submseteq_length in Hincl; [|done].
    rewrite length_seqZ in Hincl. lia. }
  specialize (Hcount (Overlay.id <$> _overlays s) (_next_id s) Hn Hnd).
  rewrite length_fmap in Hcount. apply Hcount.
  by apply Forall_fmap.
Qed.

Lemma reachable_ids_below_counter_witness :
  Forall (λ ov, 1 <= Overlay.id ov < _next_id sample_store) (_overlays sample_store)
  ∧ Z.of_nat (length (_overlays sample_store)) < _next_id sample_store.
Proof.
  apply (reachable_ids_below_counter sample_store).
  exists sample_requests. reflexivity.
Defined.

(** ** Rejected updates and creations *)








(** ** Get *)

Lemma get_overlay_inr overlay_id s ov :
  get_overlay overlay_id s = inr ov ->
  ∃ idx, list_find (has_id overlay_id) (_overlays s) = Some (idx, ov).
Proof.
  unfold get_overlay. destruct (list_find _ _) as [[idx ov']|]; [|discriminate].
  intros [= ->]. by exists idx.
Qed.

(** X7: in any store, Get raises only the not-found error, and it raises it
    exactly when no stored overlay has the id; otherwise it returns the
    overlay of that id that comes first in the collection. *)
Theorem get_overlay_first_match_or_not_found s overlay_id :
  (get_overlay overlay_id s = inl NotFoundError
   ↔ overlay_id ∉ (Overlay.id <$> _overlays s))
  ∧ (∀ e, get_overlay overlay_id s = inl e -> e = NotFoundError)
  ∧ (∀ ov, get_overlay overlay_id s = inr ov ->
       ∃ idx,
         _overlays s !! idx = Some ov
         ∧ Overlay.id ov = overlay_id
         ∧ ∀ j ov', (j < idx)%nat -> _overlays s !! j = Some ov' ->
             Overlay.id ov' ≠ overlay_id).
Proof.
  split_and!.
  - split.
    + unfold get_overlay.
      destruct (list_find _ _) as [[idx ov]|] eqn:Hf; [discriminate|]. intros _.
      rewrite list_find_None, Forall_forall in Hf.
      intros (ov & -> & Hin)%list_elem_of_fmap. by apply (Hf ov).
    + intros Hout. unfold get_overlay. by rewrite find_absent.
  - intros e. unfold get_overlay.
    destruct (list_find _ _) as [[idx ov]|]; [discriminate|]. by intros [= <-].
  - intros ov [idx (Hl & Hid & Hleast)%list_find_Some]%get_overlay_inr.
    exists idx. split_and!; [done|done|]. intros j ov' Hj Hl'. by eapply Hleast.
Qed.

Lemma get_overlay_stored s overlay_id ov :
  store_inv s ->
  get_overlay overlay_id s = inr ov ↔ ov ∈ _overlays s ∧ Overlay.id ov = overlay_id.
Proof.
  intros [Hnd _ _ _]. split.
  - intros [idx [Hl Hid]%find_has_id]%get_overlay_inr.
    split; [|done]. by eapply list_elem_of_lookup_2.
  - intros [[idx Hl]%list_elem_of_lookup <-].
    unfold get_overlay. by rewrite (find_by_id _ idx ov Hnd Hl).
Qed.

(** X8: in a reachable store, Get returns an overlay exactly when that overlay
    is in the collection under the requested id. *)
Theorem get_overlay_returns_the_stored_overlay s overlay_id ov :
  reachable s ->
  get_overlay overlay_id s = inr ov ↔ ov ∈ _overlays s ∧ Overlay.id ov = overlay_id.
Proof. intros Hs%reachable_inv. by apply get_overlay_stored. Qed.

Lemma get_overlay_returns_the_stored_overlay_witness :
  get_overlay 2 sample_store = inr stored_logo
  ↔ stored_logo ∈ _overlays sample_store ∧ Overlay.id stored_logo = 2.
Proof.
  apply (get_overlay_returns_the_stored_overlay sample_store 2 stored_logo).
  exists sample_requests. reflexivity.
Defined.

(** ** Update *)

(** X9: whatever the store, the id and the body, an Update leaves the ids of the
    collection (values and order), its length and the id counter as they
    were; when it succeeds, the overlay it returns has the requested id and
    is in the collection afterwards. *)
Theorem update_keeps_ids_and_counter s overlay_id body :
  Overlay.id <$> _overlays (put_overlay overlay_id body s).2 = Overlay.id <$> _overlays s
  ∧ length (_overlays (put_overlay overlay_id body s).2) = length (_overlays s)
  ∧ _next_id (put_overlay overlay_id body s).2 = _next_id s
  ∧ ∀ updated, (put_overlay overlay_id body s).1 = inr updated ->
      Overlay.id updated = overlay_id
      ∧ updated ∈ _overlays (put_overlay overlay_id body s).2.
Proof.
  unfold put_overlay. destruct (OverlayUpdate.parse body) as [e|payload]; [done|].
  unfold update_overlay.
  destruct (list_find _ _) as [[idx ov]|] eqn:Hf; [|done].
  destruct (Overlay.new _) as [e|updated] eqn:Hnew; [done|]. simpl.
  apply Overlay_new_inr in Hnew as [-> _]. apply find_has_id in Hf as [Hl Hid].
  split_and!.
  - by erewrite ids_insert_same.
  - apply length_insert.
  - done.
  - intros updated [= <-]. split; [done|].
    apply list_elem_of_insert. by eapply lookup_lt_Some.
Qed.

(** X10: in a reachable store, after an Update of a stored overlay with a valid
    payload, a Get of the same id returns the overlay the Update returned. *)
Theorem update_then_get_round_trip s idx ov payload :
  reachable s -> _overlays s !! idx = Some ov ->
  OverlayUpdate.valid payload = true ->
  ∃ updated s',
    update_overlay (Overlay.id ov) payload s = (inr updated, s')
    ∧ get_overlay (Overlay.id ov) s' = inr updated.
Proof.
  intros Hs%reachable_inv Hl Hv.
  pose proof (store_inv_update (Overlay.id ov) payload s Hs) as Hs'.
  rewrite (update_overlay_found s idx ov payload Hs Hl Hv) in Hs' |- *.
  eexists _, _. split; [reflexivity|].
  apply get_overlay_stored; [exact Hs'|]. split; [|done].
  cbn [snd _overlays]. apply list_elem_of_insert. by eapply lookup_lt_Some.
Qed.

Lemma update_then_get_round_trip_witness :
  ∃ updated s',
    update_overlay (Overlay.id stored_logo) only_x sample_store = (inr updated, s')
    ∧ get_overlay (Overlay.id stored_logo) s' = inr updated.
Proof.
  apply (update_then_get_round_trip sample_store 1%nat stored_logo only_x).
  - exists sample_requests. reflexivity.
  - reflexivity.
  - reflexivity.
Defined.

Lemma update_data_twice ov payload :
  update_data (update_data ov payload) payload = update_data ov payload.
Proof.
  destruct payload as [n t x y w h o c ct v]. unfold update_data. simpl.
  by destruct n, t, x, y, w, h, o, c, ct, v.
Qed.

(** X11: in a reachable store, repeating an Update of a stored overlay with the
    same valid payload returns the same overlay and leaves the store as the
    first Update left it. *)
Theorem update_is_idempotent s idx ov payload :
  reachable s -> _overlays s !! idx = Some ov ->
  OverlayUpdate.valid payload = true ->
  update_overlay (Overlay.id ov) payload (update_overlay (Overlay.id ov) payload s).2
  = update_overlay (Overlay.id ov) payload s.
Proof.
  intros Hs%reachable_inv Hl Hv.
  pose proof (store_inv_update (Overlay.id ov) payload s Hs) as Hs'.
  rewrite (update_overlay_found s idx ov payload Hs Hl Hv) in Hs' |- *.
  cbn [snd] in *. set (u := update_data ov payload) in *.
  assert (<[idx := u]> (_overlays s) !! idx = Some u) as Hl'.
  { apply list_lookup_insert_eq. by eapply lookup_lt_Some. }
  change (Overlay.id ov) with (Overlay.id u).
  rewrite (update_overlay_found _ idx u payload Hs' Hl' Hv).
  cbn [_overlays _next_id]. unfold u.
  by rewrite update_data_twice, list_insert_insert_eq.
Qed.

Lemma update_is_idempotent_witness :
  update_overlay (Overlay.id stored_logo) only_x
    (update_overlay (Overlay.id stored_logo) only_x sample_store).2
  = update_overlay (Overlay.id stored_logo) only_x sample_store.
Proof.
  apply (update_is_idempotent sample_store 1%nat stored_logo only_x).
  - exists sample_requests. reflexivity.
  - reflexivity.
  - reflexivity.
Defined.

(** X12: in any store, an Update never turns a present content into an absent
    one: when the overlay Get finds under the id has a content, the overlay a
    successful Update of that id returns has one too, whatever the body. *)
Theorem update_never_clears_content s overlay_id body ov updated s' :
  get_overlay overlay_id s = inr ov ->
  Overlay.content ov ≠ None ->
  put_overlay overlay_id body s = (inr updated, s') ->
  Overlay.content updated ≠ None.
Proof.
  intros [idx Hf]%get_overlay_inr Hc. unfold put_overlay.
  destruct (OverlayUpdate.parse body) as [e|payload]; [discriminate|].
  unfold update_overlay. rewrite Hf.
  destruct (Overlay.new _) as [e|u] eqn:Hnew; [discriminate|].
  apply Overlay_new_inr in Hnew as [-> _]. intros [= <- _]. simpl.
  by destruct (OverlayUpdate.content payload).
Qed.

Lemma update_never_clears_content_witness :
  Overlay.content stored_lower_third ≠ None.
Proof.
  apply (update_never_clears_content sample_store 1 (nullify f_content hide)
           stored_lower_third stored_lower_third sample_store).
  - reflexivity.
  - discriminate.
  - reflexivity.
Defined.

(** ** Requests leave the other overlays alone *)

Lemma stays_stored r s ov :
  store_inv s -> writes_to (Overlay.id ov) r = false ->
  ov ∈ _overlays s -> ov ∈ _overlays (serve r s).2.
Proof.
  intros [Hnd _ _ _] Hw Hin.
  destruct r as [|body|overlay_id|overlay_id body|overlay_id]; simpl in *; try done.
  - unfold post_overlays. destruct (OverlayCreate.parse body) as [e|payload]; [done|].
    unfold create_overlay. destruct (Overlay.new _) as [e|new]; [done|].
    simpl. apply elem_of_app. by left.
  - apply bool_decide_eq_false in Hw. unfold put_overlay.
    destruct (OverlayUpdate.parse body) as [e|payload]; [done|].
    unfold update_overlay.
    destruct (list_find _ _) as [[idx old]|] eqn:Hf; [|done].
    destruct (Overlay.new _) as [e|updated]; [done|]. simpl.
    apply find_has_id in Hf as [Hl Hid].
    apply list_elem_of_lookup in Hin as [j Hj].
    apply list_elem_of_lookup. exists j. rewrite list_lookup_insert_ne; [done|].
    intros ->. rewrite Hl in Hj. injection Hj as ->. done.
  - apply bool_decide_eq_false in Hw. unfold delete_overlay.
    destruct (list_find _ _) as [[idx old]|] eqn:Hf; [|done]. simpl.
    apply find_has_id in Hf as [Hl Hid].
    destruct (delete_split _ _ _ Hl) as (Hsplit & -> & _).
    rewrite Hsplit in Hin.
    apply elem_of_app in Hin as [Hin|[->|Hin]%elem_of_cons];
      [apply elem_of_app; by left|done|apply elem_of_app; by right].
Qed.

(** X13: in a reachable store, a request that neither updates nor deletes a given
    id (any listing, read or creation, and any update or deletion of another
    id, successful or not) leaves the overlay of that id as it was: a Get of
    the id returns the same overlay after the request as before. *)
Theorem other_requests_keep_overlay s r overlay_id ov :
  reachable s -> writes_to overlay_id r = false ->
  get_overlay overlay_id s = inr ov ->
  get_overlay overlay_id (serve r s).2 = inr ov.
Proof.
  intros Hs%reachable_inv Hw [Hin <-]%(get_overlay_stored _ _ _ Hs).
  apply get_overlay_stored; [by apply store_inv_serve|].
  split; [|done]. by apply stays_stored.
Qed.

Lemma other_requests_keep_overlay_witness :
  get_overlay 2 (serve (DELETE_overlay 1) sample_store).2 = inr stored_logo.
Proof.
  apply (other_requests_keep_overlay sample_store (DELETE_overlay 1) 2 stored_logo).
  - exists sample_requests. reflexivity.
  - reflexivity.
  - reflexivity.
Defined.

(** ** Delete *)

(** X14: in a reachable store, deleting a stored id succeeds once: a second Delete
    of the same id raises the not-found error and changes nothing. *)
Theorem second_delete_is_not_found s overlay_id :
  reachable s -> overlay_id ∈ (Overlay.id <$> _overlays s) ->
  (delete_overlay overlay_id s).1 = inr tt
  ∧ delete_overlay overlay_id (delete_overlay overlay_id s).2
    = (inl NotFoundError, (delete_overlay overlay_id s).2).
Proof.
  intros [Hnd _ _ _]%reachable_inv (ov & -> & [idx Hl]%list_elem_of_lookup)%list_elem_of_fmap.
  destruct (delete_split _ _ _ Hl) as (Hsplit & Hdel & _).
  unfold delete_overlay at 1 3 4. rewrite (find_by_id _ idx ov Hnd Hl).
  split; [done|]. cbn [snd]. unfold delete_overlay. cbn [_overlays].
  rewrite find_absent; [done|].
  rewrite Hdel. apply id_gone_after_removal. by rewrite <- Hsplit.
Qed.

Lemma second_delete_is_not_found_witness :
  (delete_overlay 2 sample_store).1 = inr tt
  ∧ delete_overlay 2 (delete_overlay 2 sample_store).2
    = (inl NotFoundError, (delete_overlay 2 sample_store).2).
Proof.
  apply (second_delete_is_not_found sample_store 2).
  - exists sample_requests. reflexivity.
  - apply (list_elem_of_lookup_2 _ 1%nat). reflexivity.
Defined.

Lemma delete_last {A} (l : list A) x : delete (length l) (l ++ [x]) = l.
Proof. induction l as [|a l IH]; simpl; [done|]. by rewrite IH. Qed.

(** X15: in a reachable store, a Create with a valid payload followed by a Delete
    of the id it returned succeeds and restores the collection, but not the
    id counter, which stays advanced by one: the deleted id is not handed out
    again. *)
Theorem create_then_delete_restores_collection s payload :
  reachable s -> OverlayCreate.valid payload = true ->
  ∃ ov s',
    create_overlay payload s = (inr ov, s')
    ∧ delete_overlay (Overlay.id ov) s'
      = (inr tt, mkStore (_overlays s) (_next_id s + 1)).
Proof.
  intros Hs%reachable_inv Hv.
  pose proof (store_inv_create payload s Hv Hs) as [Hnd _ _ _].
  rewrite create_overlay_valid in Hnd |- * by done. cbn [snd _overlays] in Hnd.
  set (ov := create_data (_next_id s) payload) in *.
  eexists _, _. split; [reflexivity|].
  unfold delete_overlay. cbn [_overlays _next_id].
  rewrite (find_by_id _ (length (_overlays s)) ov Hnd) by by apply list_lookup_middle.
  by rewrite delete_last.
Qed.

Lemma create_then_delete_restores_collection_witness :
  ∃ ov s',
    create_overlay valid_logo sample_store = (inr ov, s')
    ∧ delete_overlay (Overlay.id ov) s'
      = (inr tt, mkStore (_overlays sample_store) (_next_id sample_store + 1)).
Proof.
  apply (create_then_delete_restores_collection sample_store valid_logo).
  - exists sample_requests. reflexivity.
  - reflexivity.
Defined.
